(** * A shallow embedding of the users/posts GraphQL schema

    The development follows [schema.js] (second half of [src/index.js]):
    the two entity types, the root query object, the mutation object with
    its five resolvers, and the exported schema.  [src/unnamed/part_000]
    is an earlier copy of the same file in which the text field of both
    entities is called [name] instead of [firstName]/[title]; every
    resolver has the same shape there.

    The identifiers [User] and [Post] are free in the source: they are the
    two collections of the document store.  The store and the GraphQL
    execution engine are collaborators outside the repository and are
    modelled in sections 2 and 4. *)

From stdpp Require Import base strings gmap list option fin_maps.

Open Scope string_scope.

(** ** 1. JavaScript values, objects and documents *)

Inductive value :=
  | VUndefined
  | VNull
  | VStr (s : string).

#[global] Instance value_eq_dec : EqDecision value.
Proof. solve_decision. Defined.

(** A JavaScript object with primitive properties. *)
Abbreviation obj := (gmap string value).

(** [o.k]: reading a property that is not there yields [undefined]. *)
Definition prop (o : obj) (k : string) : value := default VUndefined (o !! k).

(** [{ k1: v1, k2: v2, ... }] *)
Definition object_literal (kvs : list (string * value)) : obj := list_to_map kvs.

(** A stored document: its identifier and its fields. *)
Record document := Doc { doc_id : string; doc_fields : obj }.

#[global] Instance document_eq_dec : EqDecision document.
Proof. solve_decision. Defined.

(** What a resolver hands back to the engine. *)
Inductive rvalue :=
  | RNull
  | RDoc (d : document)
  | RList (ds : list document).

Definition of_option (r : option document) : rvalue :=
  match r with Some d => RDoc d | None => RNull end.

(** ** 2. The document store *)

Inductive coll := User | Post.

#[global] Instance coll_eq_dec : EqDecision coll.
Proof. solve_decision. Defined.

Record store := Store { user_docs : gmap string obj; post_docs : gmap string obj }.

Definition sel (c : coll) (s : store) : gmap string obj :=
  match c with User => user_docs s | Post => post_docs s end.

Definition upd (c : coll) (f : gmap string obj → gmap string obj) (s : store) : store :=
  match c with
  | User => Store (f (user_docs s)) (post_docs s)
  | Post => Store (user_docs s) (f (post_docs s))
  end.

(** Modelled from the spec: the fields of the two entities (section 3 of
    the specification); the model files that declare them are not part of
    the sources.  The identifier is kept apart, as the document key. *)
Definition paths (c : coll) : list string :=
  match c with
  | User => ["firstName"; "email"; "phone"]
  | Post => ["title"; "description"; "status"; "creatorId"]
  end.

(** Two settings of the store driver are not fixed by the sources and
    change what the resolvers below observe:
    - [strictQuery]: filter conditions on a path the entity does not
      declare are dropped before the query is sent;
    - [omitUndefined]: keys whose value is [undefined] are removed from a
      [$set] patch; otherwise they are written as [null]. *)
Record driver := Driver { strictQuery : bool; omitUndefined : bool }.

(** Store operations issued by a resolver, in the order they complete. *)
Inductive op :=
  | OpFindById (c : coll) (id : value)
  | OpFind (c : coll) (flt : list (string * value))
  | OpSave (c : coll) (id : string)
  | OpFindByIdAndUpdate (c : coll) (id : value)
  | OpFindByIdAndRemove (c : coll) (id : value)
  | OpDeleteOne (c : coll) (id : string).

#[global] Instance op_eq_dec : EqDecision op.
Proof. solve_decision. Defined.

Inductive exn :=
  | ReferenceError (ident : string)
  | TypeError
  | NullForNonNull (field : string).

#[global] Instance exn_eq_dec : EqDecision exn.
Proof. solve_decision. Defined.

(** ** 3. Resolver computations

    A resolver runs against the store; it either returns or throws, leaves
    a store behind and a trace of the store operations it has awaited. *)

Record outcome (A : Type) :=
  Outcome { result : exn + A; final : store; trace : list op }.
Arguments Outcome {A} _ _ _.
Arguments result {A} _.
Arguments final {A} _.
Arguments trace {A} _.

Definition M (A : Type) : Type := store → outcome A.

#[global] Instance M_ret : MRet M := λ A a s, Outcome (inr a) s [].

Definition throw {A} (e : exn) : M A := λ s, Outcome (inl e) s [].

(** Sequencing is [await]: the continuation runs on the store the first
    computation left, and not at all if that one threw. *)
#[global] Instance M_bind : MBind M := λ A B k m s,
  let o := m s in
  match result o with
  | inl e => Outcome (inl e) (final o) (trace o)
  | inr a => let o' := k a (final o) in
             Outcome (result o') (final o') (trace o ++ trace o')
  end.

#[global] Instance M_fmap : FMap M := λ A B f m s,
  let o := m s in
  Outcome (match result o with inl e => inl e | inr a => inr (f a) end)
          (final o) (trace o).

Section Store.
Context (dr : driver).

(** The operations of the Document Store Client (sections 2 and 6 of the
    specification) on one collection.  None of them is in the sources:
    each is modelled from the specification, on a collection kept as a
    finite map from identifiers to fields. *)

(** Every document of a collection, in the order of the map. *)
Definition docs (c : coll) (s : store) : list document :=
  (λ kv, Doc kv.1 kv.2) <$> map_to_list (sel c s).

(** What the driver makes of a filter before it is sent. *)
Definition cast_filter (c : coll) (flt : list (string * value)) : list (string * value) :=
  if strictQuery dr then filter (λ kv, kv.1 ∈ paths c) flt else flt.

(** A document matches when it has each field of the filter, with that
    value. *)
Definition matches (flt : list (string * value)) (d : document) : Prop :=
  Forall (λ kv, doc_fields d !! kv.1 = Some kv.2) flt.

#[global] Instance matches_dec flt d : Decision (matches flt d).
Proof. unfold matches. apply _. Defined.

Definition select (c : coll) (flt : list (string * value)) (s : store) : list document :=
  filter (matches (cast_filter c flt)) (docs c s).

Definition lookup_doc (c : coll) (id : value) (s : store) : option document :=
  match id with
  | VStr k => Doc k <$> (sel c s !! k)
  | _ => None
  end.

(** Modelled from the spec: [findById(id)] resolves to the record with
    that identifier, or to null; it fails on no identifier. *)
Definition findById (c : coll) (id : value) : M (option document) := λ s,
  Outcome (inr (lookup_doc c id s)) s [OpFindById c id].

(** Modelled from the spec: [find(filter)] resolves to the records that
    match the filter, all of them when the filter is empty. *)
Definition find (c : coll) (flt : list (string * value)) : M (list document) := λ s,
  Outcome (inr (select c flt s)) s [OpFind c flt].

(** A document holds no [undefined]: such properties are not persisted. *)
Definition persisted (o : obj) : obj := filter (λ kv, kv.2 ≠ VUndefined) o.

(** Modelled from the spec: [save(entity)] inserts a new record under an
    identifier that the store assigns, and resolves to that record. *)
Definition save (c : coll) (o : obj) : M document := λ s,
  let k := fresh (dom (sel c s)) in
  let d := Doc k (persisted o) in
  Outcome (inr d) (upd c (insert k (doc_fields d)) s) [OpSave c k].

(** What the driver makes of the object under [$set]. *)
Definition cast_set (patch : obj) : obj :=
  if omitUndefined dr then persisted patch
  else (λ v, match v with VUndefined => VNull | _ => v end) <$> patch.

(** [$set]: the keys of the patch overwrite, the other fields stay. *)
Definition apply_set (patch : obj) (o : obj) : obj := cast_set patch ∪ o.

(** Modelled from the spec: [findByIdAndUpdate(id, patch)] applies the
    patch to the record with that identifier and resolves to the record
    after the update (the source passes [{ new: true }]), or to null when
    there is none. *)
Definition findByIdAndUpdate (c : coll) (id : value) (patch : obj) : M (option document) := λ s,
  match lookup_doc c id s with
  | Some d =>
      let d' := Doc (doc_id d) (apply_set patch (doc_fields d)) in
      Outcome (inr (Some d')) (upd c (insert (doc_id d) (doc_fields d')) s)
              [OpFindByIdAndUpdate c id]
  | None => Outcome (inr None) s [OpFindByIdAndUpdate c id]
  end.

(** Modelled from the spec: [findByIdAndRemove(id)] removes the record
    with that identifier and resolves to it, or to null when there is
    none. *)
Definition findByIdAndRemove (c : coll) (id : value) : M (option document) := λ s,
  match lookup_doc c id s with
  | Some d => Outcome (inr (Some d)) (upd c (delete (doc_id d)) s)
                      [OpFindByIdAndRemove c id]
  | None => Outcome (inr None) s [OpFindByIdAndRemove c id]
  end.

(** Modelled from the spec: [deleteOne()] on a document that a query
    returned removes the record with its identifier. *)
Definition deleteOne (c : coll) (d : document) : M unit := λ s,
  Outcome (inr tt) (upd c (delete (doc_id d)) s) [OpDeleteOne c (doc_id d)].

End Store.

(** ** 4. Schema objects and the execution engine *)

(** [GraphQLId] stands for the name of that spelling, which the source
    imports from [graphql] next to [GraphQLID]: the package exports no
    such name, so it is bound to no type and no literal is of it. *)
Inductive gtype :=
  | GraphQLString
  | GraphQLID
  | GraphQLId
  | GraphQLEnumType (name : string) (values : list (string * string))
  | GraphQLObject (name : string)
  | GraphQLList (t : gtype)
  | GraphQLNonNull (t : gtype).

Record argcfg := Arg { a_type : gtype; a_defaultValue : option value }.

(** [(parent, args) => ...] *)
Definition resolver : Type := option document → obj → M rvalue.

(** The configuration object of one field.  The engine reads [type],
    [args] and [resolve]; [f_other] holds whatever further keys the object
    literal carries, which are themselves written as field
    configurations in the source. *)
#[local] Unset Elimination Schemes.
Inductive fieldcfg :=
  FieldCfg { f_type : gtype;
             f_args : list (string * argcfg);
             f_resolve : option resolver;
             f_other : list (string * fieldcfg) }.
#[local] Set Elimination Schemes.

Record objtype := GraphQLObjectType { ot_name : string; ot_fields : list (string * fieldcfg) }.

Record gschema := GraphQLSchema { s_query : option objtype; s_mutation : option objtype }.

(** Lookup of a key in an object literal kept as an association list. *)
Fixpoint assoc {A} (k : string) (l : list (string * A)) : option A :=
  match l with
  | [] => None
  | (k', a) :: l' => if decide (k = k') then Some a else assoc k l'
  end.

Definition is_nonnull (t : gtype) : bool :=
  match t with GraphQLNonNull _ => true | _ => false end.

(** Argument values as written in a request document. *)
Inductive literal :=
  | LString (s : string)
  | LEnum (token : string)
  | LNull.

Inductive optype := Query | Mutation.

Inductive request_error :=
  | NotConfigured (o : optype)
  | UnknownField (type field : string)
  | UnknownArgument (field arg : string)
  | MissingArgument (field arg : string)
  | BadValue (field arg : string).

Inductive response (A : Type) :=
  | Rejected (e : request_error)
  | Performed (o : outcome A).
Arguments Rejected {A} _.
Arguments Performed {A} _.

Record request := Request { r_op : optype; r_field : string; r_args : gmap string literal }.

(** The execution engine is a collaborator outside the sources; what
    follows is modelled from sections 2, 4.3, 6 and 7 of the
    specification: a request that names an unknown field or argument, or
    lacks a required argument, is rejected before any resolver runs; an
    omitted argument takes its default when it has one and is otherwise
    left out of [args]; an enumeration token is replaced by its value; a
    null result is accepted for a nullable field. *)

(** Modelled from the spec: the value of a literal at a type; [None] when
    the literal is not of the type. *)
Fixpoint coerce_literal (t : gtype) (l : literal) : option value :=
  match t, l with
  | GraphQLId, _ => None
  | GraphQLNonNull _, LNull => None
  | GraphQLNonNull t', _ => coerce_literal t' l
  | _, LNull => Some VNull
  | (GraphQLString | GraphQLID), LString s => Some (VStr s)
  | GraphQLEnumType _ values, LEnum token => VStr <$> assoc token values
  | _, _ => None
  end.

(** Modelled from the spec: the [args] object built from the declared
    arguments and the ones the request gives. *)
Fixpoint coerce_defs (field : string) (defs : list (string * argcfg))
    (given : gmap string literal) : request_error + obj :=
  match defs with
  | [] => inr ∅
  | (a, cfg) :: defs' =>
      match coerce_defs field defs' given with
      | inl e => inl e
      | inr args =>
          match given !! a with
          | None =>
              match a_defaultValue cfg with
              | Some v => inr (<[a := v]> args)
              | None => if is_nonnull (a_type cfg)
                        then inl (MissingArgument field a) else inr args
              end
          | Some l =>
              match coerce_literal (a_type cfg) l with
              | Some v => inr (<[a := v]> args)
              | None => inl (BadValue field a)
              end
          end
      end
  end.

(** The arguments of the request that the field does not declare. *)
Definition undeclared (defs : list (string * argcfg)) (given : gmap string literal) : list string :=
  filter (λ a, a ∉ defs.*1) (map_to_list given).*1.

(** Modelled from the spec: validation, then coercion, of the arguments
    of one field. *)
Definition coerce_args (field : string) (defs : list (string * argcfg))
    (given : gmap string literal) : request_error + obj :=
  match undeclared defs given with
  | a :: _ => inl (UnknownArgument field a)
  | [] => coerce_defs field defs given
  end.

(** [source.field], with the identifier of a document under [id]. *)
Definition property (d : document) (k : string) : value :=
  if decide (k = "id") then VStr (doc_id d) else prop (doc_fields d) k.

Inductive fvalue :=
  | FScalar (v : value)
  | FObject (r : rvalue).

(** Modelled from the spec: a null result is an error only at a field
    whose type is non-null. *)
Definition complete_value (field : string) (t : gtype) (v : rvalue) : M fvalue :=
  match v with
  | RNull => if is_nonnull t then throw (NullForNonNull field) else mret (FObject RNull)
  | _ => mret (FObject v)
  end.

(** Modelled from the spec: a field with a resolver is resolved by it, on
    the parent value and the arguments; any other field is a property of
    the parent. *)
Definition resolve_field (field : string) (cfg : fieldcfg)
    (parent : option document) (args : obj) : M fvalue :=
  match f_resolve cfg with
  | Some r => v ← r parent args; complete_value field (f_type cfg) v
  | None => mret (FScalar (from_option (λ d, property d field) VUndefined parent))
  end.

(** Modelled from the spec: execution of one field of a request. *)
Definition invoke (field : string) (cfg : fieldcfg) (parent : option document)
    (given : gmap string literal) (s : store) : response fvalue :=
  match coerce_args field (f_args cfg) given with
  | inl e => Rejected e
  | inr args => Performed (resolve_field field cfg parent args s)
  end.

Definition root_type (sch : gschema) (o : optype) : option objtype :=
  match o with Query => s_query sch | Mutation => s_mutation sch end.

(** Modelled from the spec: execution of a request with one root field
    against a schema. *)
Definition execute (sch : gschema) (rq : request) (s : store) : response fvalue :=
  match root_type sch (r_op rq) with
  | None => Rejected (NotConfigured (r_op rq))
  | Some ot =>
      match assoc (r_field rq) (ot_fields ot) with
      | None => Rejected (UnknownField (ot_name ot) (r_field rq))
      | Some cfg => invoke (r_field rq) cfg None (r_args rq) s
      end
  end.

(** Modelled from the spec: a sub-selection [{ field }] under a list of
    already resolved parents; the field is resolved once per parent, each
    resolver seeing its own parent. *)
Definition execute_under (ot : objtype) (field : string) (parents : list document)
    (s : store) : response (list fvalue) :=
  match assoc field (ot_fields ot) with
  | None => Rejected (UnknownField (ot_name ot) field)
  | Some cfg =>
      match coerce_args field (f_args cfg) ∅ with
      | inl e => Rejected e
      | inr args => Performed (mapM (λ p, resolve_field field cfg (Some p) args) parents s)
      end
  end.

(** ** 5. The loop of [deleteUser]

    [for (x of xs) body] assigns each element to the reference [x] and
    runs the body.  Module code is strict: assigning to an identifier that
    no scope declares throws. *)

Inductive lhs :=
  | Declared
  | Undeclared (ident : string).

Definition put_value (target : lhs) : M unit :=
  match target with
  | Declared => mret tt
  | Undeclared x => throw (ReferenceError x)
  end.

Fixpoint for_of {A} (target : lhs) (xs : list A) (body : A → M unit) : M unit :=
  match xs with
  | [] => mret tt
  | x :: xs' => put_value target;; body x;; for_of target xs' body
  end.

(** ** 6. [schema.js]

    The entity types and the arguments of [user] and [post] are typed
    [GraphQLId], the mutations [GraphQLID], as in the source. *)

Definition scalar (t : gtype) : fieldcfg := FieldCfg t [] None [].

Definition member (parent : option document) (k : string) : M value :=
  match parent with
  | Some d => mret (prop (doc_fields d) k)
  | None => throw TypeError
  end.

Definition PostStatus : gtype :=
  GraphQLEnumType "PostStatus"
    [("new", "Not Started"); ("progress", "In Progress"); ("completed", "Completed")].

Definition PostStatusUpdate : gtype :=
  GraphQLEnumType "PostStatusUpdate"
    [("new", "Not Started"); ("progress", "In Progress"); ("completed", "Completed")].

Section Schema.
Context (dr : driver).

Definition UserType : objtype :=
  GraphQLObjectType "User"
    [("id", scalar GraphQLId);
     ("firstName", scalar GraphQLString);
     ("email", scalar GraphQLString);
     ("phone", scalar GraphQLString)].

Definition creator_resolve : resolver := λ post args,
  creatorId ← member post "creatorId";
  of_option <$> findById User creatorId.

Definition creator : fieldcfg :=
  FieldCfg (GraphQLObject "User") [] (Some creator_resolve) [].

Definition PostType : objtype :=
  GraphQLObjectType "Post"
    [("id", scalar GraphQLId);
     ("title", scalar GraphQLString);
     ("description", scalar GraphQLString);
     ("status", scalar GraphQLString);
     ("creator", creator)].

Definition user_resolve : resolver := λ parent args,
  of_option <$> findById User (prop args "id").

Definition users_resolve : resolver := λ parent args,
  RList <$> find dr User [].

Definition post_resolve : resolver := λ parent args,
  of_option <$> findById Post (prop args "id").

Definition posts_resolve : resolver := λ parent args,
  RList <$> find dr Post [].

(** The source closes the object of [user] only after [posts]: the three
    configurations below are keys of that object, next to [type], [args]
    and [resolve]. *)
Definition users : fieldcfg :=
  FieldCfg (GraphQLList (GraphQLObject "User")) [] (Some users_resolve) [].

Definition post : fieldcfg :=
  FieldCfg (GraphQLObject "Post") [("id", Arg GraphQLId None)] (Some post_resolve) [].

Definition posts : fieldcfg :=
  FieldCfg (GraphQLList (GraphQLObject "Post")) [] (Some posts_resolve) [].

Definition user : fieldcfg :=
  FieldCfg (GraphQLObject "User") [("id", Arg GraphQLId None)] (Some user_resolve)
    [("users", users); ("post", post); ("posts", posts)].

Definition RootQuery : objtype :=
  GraphQLObjectType "RootQueryType" [("user", user)].

Definition createUser_resolve : resolver := λ parent args,
  let firstName := prop args "firstName" in
  let email := prop args "email" in
  let phone := prop args "phone" in
  RDoc <$> save User
    (object_literal [("firstName", firstName); ("email", email); ("phone", phone)]).

Definition createUser : fieldcfg :=
  FieldCfg (GraphQLObject "User")
    [("firstName", Arg (GraphQLNonNull GraphQLString) None);
     ("email", Arg (GraphQLNonNull GraphQLString) None);
     ("phone", Arg (GraphQLNonNull GraphQLString) None)]
    (Some createUser_resolve) [].

Definition deleteUser_resolve : resolver := λ parent args,
  let userId := prop args "id" in
  usersPosts ← find dr Post [("userId", userId)];
  for_of (Undeclared "post") usersPosts (λ post, deleteOne Post post);;
  of_option <$> findByIdAndRemove User userId.

Definition deleteUser : fieldcfg :=
  FieldCfg (GraphQLObject "User")
    [("id", Arg (GraphQLNonNull GraphQLID) None)]
    (Some deleteUser_resolve) [].

Definition createPost_resolve : resolver := λ parent args,
  RDoc <$> save Post
    (object_literal
       [("creatorId", prop args "userId");
        ("title", prop args "title");
        ("description", prop args "description");
        ("status", prop args "status")]).

Definition createPost : fieldcfg :=
  FieldCfg (GraphQLObject "Post")
    [("creatorId", Arg (GraphQLNonNull GraphQLID) None);
     ("title", Arg (GraphQLNonNull GraphQLString) None);
     ("description", Arg (GraphQLNonNull GraphQLString) None);
     ("status", Arg PostStatus (Some (VStr "Not Started")))]
    (Some createPost_resolve) [].

Definition updatePost_resolve : resolver := λ parent args,
  of_option <$> findByIdAndUpdate dr Post (prop args "id")
    (object_literal
       [("title", prop args "title");
        ("description", prop args "description");
        ("status", prop args "status")]).

Definition updatePost : fieldcfg :=
  FieldCfg (GraphQLObject "Post")
    [("id", Arg (GraphQLNonNull GraphQLID) None);
     ("title", Arg GraphQLString None);
     ("description", Arg GraphQLString None);
     ("status", Arg PostStatusUpdate None)]
    (Some updatePost_resolve) [].

Definition deletePost_resolve : resolver := λ parent args,
  of_option <$> findByIdAndRemove Post (prop args "id").

Definition deletePost : fieldcfg :=
  FieldCfg (GraphQLObject "Post")
    [("id", Arg (GraphQLNonNull GraphQLID) None)]
    (Some deletePost_resolve) [].

Definition mutation : objtype :=
  GraphQLObjectType "Mutation"
    [("createUser", createUser);
     ("deleteUser", deleteUser);
     ("createPost", createPost);
     ("updatePost", updatePost);
     ("deletePost", deletePost)].

(** [new GraphQLSchema({ query: RootQuery })] *)
Definition schema : gschema := GraphQLSchema (Some RootQuery) None.

End Schema.

(** ** 7. Example stores and requests *)

Definition alex : obj :=
  object_literal [("firstName", VStr "Alex"); ("email", VStr "a@t.com"); ("phone", VStr "07516")].

Definition hello : obj :=
  object_literal
    [("creatorId", VStr "u1"); ("title", VStr "Hello");
     ("description", VStr "First Post!"); ("status", VStr "Not Started")].

(** One user and one post of that user. *)
Definition st1 : store := Store {[ "u1" := alex ]} {[ "p1" := hello ]}.

(** The request of the comment under [createPost] in the source. *)
Definition createPost_given : gmap string literal :=
  {[ "title" := LString "Hello"; "description" := LString "First Post!";
     "status" := LEnum "new"; "creatorId" := LString "u1" ]}.

(** The post of [st1] once its creator is gone. *)
Definition st_orphan : store := Store ∅ {[ "p1" := hello ]}.

(** [updatePost(id: "p1", status: completed)]: the request, and the
    arguments the resolver receives for it. *)
Definition updatePost_given : gmap string literal :=
  {[ "id" := LString "p1"; "status" := LEnum "completed" ]}.

Definition updatePost_args : obj := {[ "id" := VStr "p1"; "status" := VStr "Completed" ]}.

(** ** 8. Vocabulary of the statements *)

(** [post.creatorId] *)
Definition creatorId (p : document) : value := prop (doc_fields p) "creatorId".

(** The posts whose creator is [u]. *)
Definition posts_of (u : string) (s : store) : list document :=
  filter (λ d, creatorId d = VStr u) (docs Post s).

(** The store operation behind [post.deleteOne()]. *)
Definition removal (c : coll) (d : document) : op := OpDeleteOne c (doc_id d).

(** The object under [$set] in [updatePost]. *)
Definition updatePost_patch (args : obj) : obj :=
  object_literal
    [("title", prop args "title");
     ("description", prop args "description");
     ("status", prop args "status")].

(** An invocation is idempotent at a store when running it again on the
    store it left returns the same and leaves the same. *)
Definition idempotent_at {A} (m : M A) (s : store) : Prop :=
  result (m (final (m s))) = result (m s) ∧ final (m (final (m s))) = final (m s).

(** The request of the comment under [createUser] in the source. *)
Definition createUser_given : gmap string literal :=
  {[ "firstName" := LString "Alex"; "email" := LString "a@t.com";
     "phone" := LString "07516" ]}.

(** The arguments a field declares with [GraphQLNonNull] and without a
    default. *)
Definition required (cfg : fieldcfg) : list string :=
  (filter (λ d, is_nonnull (a_type d.2) ∧ a_defaultValue d.2 = None) (f_args cfg)).*1.


(** * Properties *)

(** ** Argument coercion *)

Lemma assoc_None {A} a (l : list (string * A)) : a ∉ l.*1 → assoc a l = None.
Proof.
  induction l as [|[a' x] l IH]; simpl; [done|].
  intros Hn. apply not_elem_of_cons in Hn as [? ?].
  destruct (decide (a = a')); [done|]. by apply IH.
Qed.

Section Coercion.
Context (field : string) (given : gmap string literal).

(** Only declared arguments reach the resolver. *)
Lemma coerce_defs_undeclared defs args a :
  coerce_defs field defs given = inr args →
  assoc a defs = None → args !! a = None.
Proof.
  revert args. induction defs as [|[a' cfg] defs IH]; intros args; simpl.
  - intros [= <-] _. apply lookup_empty.
  - destruct (coerce_defs field defs given) as [e|args'] eqn:E; [done|].
    destruct (decide (a = a')) as [->|Hne]; [done|].
    intros Hargs Ha. specialize (IH _ eq_refl Ha).
    destruct (given !! a') as [l|].
    + destruct (coerce_literal (a_type cfg) l); [|done].
      injection Hargs as <-. by rewrite lookup_insert_ne.
    + destruct (a_defaultValue cfg).
      * injection Hargs as <-. by rewrite lookup_insert_ne.
      * destruct (is_nonnull (a_type cfg)); [done|]. by injection Hargs as <-.
Qed.

(** What a declared argument is bound to once the request is accepted. *)
Lemma coerce_defs_declared defs args a cfg :
  NoDup defs.*1 →
  coerce_defs field defs given = inr args →
  assoc a defs = Some cfg →
  match given !! a with
  | Some l => ∃ v, coerce_literal (a_type cfg) l = Some v ∧ args !! a = Some v
  | None => args !! a = a_defaultValue cfg
            ∧ (a_defaultValue cfg = None → is_nonnull (a_type cfg) = false)
  end.
Proof.
  revert args. induction defs as [|[a' cfg'] defs IH]; intros args; simpl; [done|].
  intros Hnd. apply NoDup_cons in Hnd as [Hfresh Hnd].
  destruct (coerce_defs field defs given) as [e|args'] eqn:E; [done|].
  destruct (decide (a = a')) as [->|Hne].
  - intros Hargs [= ->].
    pose proof (coerce_defs_undeclared _ _ _ E (assoc_None _ _ Hfresh)) as Hnone.
    destruct (given !! a') as [l|].
    + destruct (coerce_literal (a_type cfg) l) as [v|]; [|done].
      injection Hargs as <-. exists v. by rewrite lookup_insert_eq.
    + destruct (a_defaultValue cfg) as [v|].
      * injection Hargs as <-. by rewrite lookup_insert_eq.
      * destruct (is_nonnull (a_type cfg)); [done|]. by injection Hargs as <-.
  - intros Hargs Ha. specialize (IH _ Hnd eq_refl Ha).
    assert (args !! a = args' !! a) as ->; [|done].
    destruct (given !! a') as [l|].
    + destruct (coerce_literal (a_type cfg') l); [|done].
      injection Hargs as <-. by rewrite lookup_insert_ne.
    + destruct (a_defaultValue cfg').
      * injection Hargs as <-. by rewrite lookup_insert_ne.
      * destruct (is_nonnull (a_type cfg')); [done|]. by injection Hargs as <-.
Qed.

Lemma coerce_args_inr defs args :
  coerce_args field defs given = inr args → coerce_defs field defs given = inr args.
Proof. unfold coerce_args. by destruct (undeclared defs given). Qed.

End Coercion.

Lemma coerce_nonnull_string t l v :
  t = GraphQLString ∨ t = GraphQLID →
  coerce_literal (GraphQLNonNull t) l = Some v → ∃ s, l = LString s ∧ v = VStr s.
Proof. intros [-> | ->]; destruct l; simpl; intros [= <-]; eauto. Qed.

Lemma invoke_performed field cfg parent given s o :
  invoke field cfg parent given s = Performed o →
  ∃ args, coerce_defs field (f_args cfg) given = inr args
          ∧ o = resolve_field field cfg parent args s.
Proof.
  unfold invoke. destruct (coerce_args field (f_args cfg) given) as [e|args] eqn:E; [done|].
  intros [= <-]. exists args. split; [by apply coerce_args_inr|done].
Qed.

(** ** The store client *)

Lemma persisted_lookup (o : obj) k :
  persisted o !! k = match o !! k with Some VUndefined => None | r => r end.
Proof.
  unfold persisted. destruct (o !! k) as [v|] eqn:E.
  - destruct (decide (v = VUndefined)) as [->|Hv].
    + apply map_lookup_filter_None. right. intros v' Hv'. naive_solver.
    + transitivity (Some v); [|by destruct v].
      by apply map_lookup_filter_Some.
  - apply map_lookup_filter_None. by left.
Qed.

Lemma prop_persisted (o : obj) k : prop (persisted o) k = prop o k.
Proof. unfold prop. rewrite persisted_lookup. by destruct (o !! k) as [[]|]. Qed.

Lemma save_spec c o s :
  let k := fresh (dom (sel c s)) in
  sel c s !! k = None
  ∧ save c o s = Outcome (inr (Doc k (persisted o))) (upd c (insert k (persisted o)) s) [OpSave c k].
Proof.
  simpl. split; [|done]. apply not_elem_of_dom, is_fresh.
Qed.

Lemma sel_upd c f s : sel c (upd c f s) = f (sel c s).
Proof. by destruct c. Qed.

Lemma sel_upd_ne c c' f s : c ≠ c' → sel c (upd c' f s) = sel c s.
Proof. by destruct c, c'. Qed.

Ltac by_computation := apply (bool_decide_unpack _); vm_compute; exact I.

Lemma createPost_args_NoDup : NoDup (f_args createPost).*1.
Proof. by_computation. Qed.

(** No argument is ever bound to [undefined]. *)
Lemma coerce_literal_defined t l : coerce_literal t l ≠ Some VUndefined.
Proof.
  induction t as [| | |n vs|n|t IH|t IH]; destruct l; simpl; try done.
  by destruct (assoc token vs).
Qed.

(** ** The exported schema *)

(** C1 (as the code has it).  The exported schema is built from
    [{ query: RootQuery }] alone: it composes the root query and no
    mutation root, and a mutation request, whatever field it names, is
    rejected before any resolver runs. *)
Theorem schema_rejects_every_mutation dr :
  s_query (schema dr) = Some (RootQuery dr)
  ∧ s_mutation (schema dr) = None
  ∧ ∀ f given s,
      execute (schema dr) (Request Mutation f given) s = Rejected (NotConfigured Mutation).
Proof. by repeat split. Qed.

(** Had the schema been given [mutation], each of the five names would
    reach its resolver. *)
Lemma registered_mutation_reaches_resolver dr q f cfg given s :
  (f, cfg) ∈ ot_fields (mutation dr) →
  execute (GraphQLSchema q (Some (mutation dr))) (Request Mutation f given) s
  = invoke f cfg None given s.
Proof.
  unfold execute. simpl. intros Hin.
  repeat (apply elem_of_cons in Hin as [[= -> ->] | Hin]; [reflexivity|]).
  by apply elem_of_nil in Hin.
Qed.

(** C2 (as the code has it).  [user] is the only key of the [fields]
    object of the root query; [users], [post] and [posts] are keys of the
    configuration of [user], where the engine does not look, and a root
    query that names one of them is rejected. *)
Theorem RootQuery_exposes_only_user dr :
  (ot_fields (RootQuery dr)).*1 = ["user"]
  ∧ (f_other (user dr)).*1 = ["users"; "post"; "posts"]
  ∧ ∀ given s,
      execute (schema dr) (Request Query "users" given) s
        = Rejected (UnknownField "RootQueryType" "users")
      ∧ execute (schema dr) (Request Query "post" given) s
        = Rejected (UnknownField "RootQueryType" "post")
      ∧ execute (schema dr) (Request Query "posts" given) s
        = Rejected (UnknownField "RootQueryType" "posts").
Proof. repeat split. Qed.

Lemma docs_NoDup c s : NoDup (docs c s).
Proof.
  unfold docs. apply NoDup_fmap_2; [|apply NoDup_map_to_list].
  intros [k1 o1] [k2 o2] [= -> ->]. done.
Qed.

Lemma elem_of_docs c s d : d ∈ docs c s ↔ sel c s !! doc_id d = Some (doc_fields d).
Proof.
  unfold docs. rewrite list_elem_of_fmap. split.
  - intros ([k o] & -> & Hin). by apply elem_of_map_to_list in Hin.
  - intros Hl. exists (doc_id d, doc_fields d). split; [by destruct d|].
    by apply elem_of_map_to_list.
Qed.

(** The resolvers written for [users] and [posts] do return the whole
    collection; no request reaches them. *)
Lemma select_all dr c s : select dr c [] s = docs c s.
Proof.
  unfold select, cast_filter. 
  assert (filter (λ kv : string * value, kv.1 ∈ paths c) [] = []) as Hnil by done.
  destruct (strictQuery dr); rewrite ?Hnil; clear Hnil.
  all: induction (docs c s) as [|d l IH]; [done|].
  all: rewrite filter_cons, IH; destruct (decide (matches [] d)) as [|Hn]; [done|].
  all: destruct Hn; constructor.
Qed.

Lemma users_resolve_all dr parent args s :
  users_resolve dr parent args s = Outcome (inr (RList (docs User s))) s [OpFind User []].
Proof. unfold users_resolve, find, fmap, M_fmap. simpl. by rewrite select_all. Qed.

Lemma posts_resolve_all dr parent args s :
  posts_resolve dr parent args s = Outcome (inr (RList (docs Post s))) s [OpFind Post []].
Proof. unfold posts_resolve, find, fmap, M_fmap. simpl. by rewrite select_all. Qed.

(** ** [createPost] *)

(** C4 (as the code has it).  The resolver of [createPost] reads
    [args.userId], a name the argument shape does not declare: an accepted
    request carries a [creatorId], and the post that is persisted and
    returned has no [creatorId]. *)
Theorem createPost_drops_creatorId given s o :
  invoke "createPost" createPost None given s = Performed o →
  ∃ c d, given !! "creatorId" = Some (LString c)
         ∧ result o = inr (FObject (RDoc d))
         ∧ post_docs (final o) !! doc_id d = Some (doc_fields d)
         ∧ prop (doc_fields d) "creatorId" = VUndefined.
Proof.
  intros (args & Hargs & ->)%invoke_performed.
  pose proof (coerce_defs_declared _ _ _ _ "creatorId" _ createPost_args_NoDup Hargs eq_refl) as Hc.
  pose proof (coerce_defs_undeclared _ _ _ _ "userId" Hargs eq_refl) as Hu.
  destruct (given !! "creatorId") as [l|]; [|by destruct Hc as [_ ?]; naive_solver].
  destruct Hc as (v & Hv & _).
  apply coerce_nonnull_string in Hv as (c & -> & _); [|by right].
  exists c. eexists. split; [done|]. split; [reflexivity|]. simpl. split.
  - apply lookup_insert_eq.
  - rewrite prop_persisted. unfold prop at 1. unfold object_literal. simpl.
    rewrite lookup_insert_eq. unfold prop. by rewrite Hu.
Qed.

Lemma createPost_drops_creatorId_witness :
  ∃ o, invoke "createPost" createPost None createPost_given st1 = Performed o
       ∧ ∃ c d, createPost_given !! "creatorId" = Some (LString c)
                ∧ result o = inr (FObject (RDoc d))
                ∧ post_docs (final o) !! doc_id d = Some (doc_fields d)
                ∧ prop (doc_fields d) "creatorId" = VUndefined.
Proof.
  eexists. split; [reflexivity|].
  apply (createPost_drops_creatorId createPost_given st1). reflexivity.
Defined.

(** C10.  When [status] is omitted from an accepted [createPost] request
    the persisted post has status ["Not Started"]; when it is given, the
    persisted status is the value of the token in the enumeration, which
    maps [new], [progress], [completed] to ["Not Started"],
    ["In Progress"], ["Completed"], in the enumeration of [updatePost] as
    well. *)
Theorem createPost_status given s o :
  invoke "createPost" createPost None given s = Performed o →
  (∃ d, result o = inr (FObject (RDoc d))
        ∧ post_docs (final o) !! doc_id d = Some (doc_fields d)
        ∧ match given !! "status" with
          | None => prop (doc_fields d) "status" = VStr "Not Started"
          | Some l => coerce_literal PostStatus l = Some (prop (doc_fields d) "status")
          end)
  ∧ (∀ ty, ty = PostStatus ∨ ty = PostStatusUpdate →
       coerce_literal ty (LEnum "new") = Some (VStr "Not Started")
       ∧ coerce_literal ty (LEnum "progress") = Some (VStr "In Progress")
       ∧ coerce_literal ty (LEnum "completed") = Some (VStr "Completed")).
Proof.
  intros (args & Hargs & ->)%invoke_performed.
  split; [|by intros ty [-> | ->]].
  pose proof (coerce_defs_declared _ _ _ _ "status" _ createPost_args_NoDup Hargs eq_refl) as Hs.
  eexists. split; [reflexivity|]. simpl. split; [apply lookup_insert_eq|].
  assert (∀ v, args !! "status" = Some v → v ≠ VUndefined →
    prop (persisted (object_literal
       [("creatorId", prop args "userId"); ("title", prop args "title");
        ("description", prop args "description"); ("status", prop args "status")]))
      "status" = v) as Hp.
  { intros v Hv Hne. rewrite prop_persisted. unfold prop at 1, object_literal. simpl.
    rewrite !lookup_insert_ne by done. rewrite lookup_insert_eq. unfold prop. by rewrite Hv. }
  destruct (given !! "status") as [l|].
  - destruct Hs as (v & Hv & Ha). change (coerce_literal PostStatus l = Some v) in Hv.
    trans (Some v); [exact Hv|]. f_equal. symmetry.
    apply Hp; [done|]. intros ->. by apply coerce_literal_defined in Hv.
  - destruct Hs as [Ha _]. by apply Hp.
Qed.

Lemma createPost_status_witness :
  ∃ o, invoke "createPost" createPost None (delete "status" createPost_given) st1 = Performed o
       ∧ ∃ d, result o = inr (FObject (RDoc d))
              ∧ post_docs (final o) !! doc_id d = Some (doc_fields d)
              ∧ prop (doc_fields d) "status" = VStr "Not Started".
Proof.
  edestruct (createPost_status (delete "status" createPost_given) st1)
    as [(d & Hr & Hd & Hs) _]; [reflexivity|].
  eexists. split; [reflexivity|].
  exists d. split; [exact Hr|]. split; [exact Hd|exact Hs].
Defined.

(** ** [deleteUser] *)

Lemma bind_run {A B} (m : M A) (k : A → M B) s :
  (m ≫= k) s
  = match result (m s) with
    | inl e => Outcome (inl e) (final (m s)) (trace (m s))
    | inr a => Outcome (result (k a (final (m s)))) (final (k a (final (m s))))
                       (trace (m s) ++ trace (k a (final (m s))))
    end.
Proof. done. Qed.

Lemma for_of_nil {A} target (body : A → M unit) s :
  for_of target [] body s = Outcome (inr tt) s [].
Proof. done. Qed.

(** In module code the loop throws on its first element, before the body
    runs. *)
Lemma for_of_undeclared {A} x (a : A) l body s :
  for_of (Undeclared x) (a :: l) body s = Outcome (inl (ReferenceError x)) s [].
Proof. done. Qed.

(** Whatever the loop variable, the removals of a cascade are awaited one
    by one, in the order of the list, and the loop returns only after the
    last of them. *)
Lemma for_of_deleteOne target c ds s :
  let o := for_of target ds (deleteOne c) s in
  ∃ removed, removed `prefix_of` ds
             ∧ trace o = removal c <$> removed
             ∧ final o = foldl (λ s d, upd c (delete (doc_id d)) s) s removed
             ∧ (result o = inr tt → removed = ds).
Proof.
  revert s. induction ds as [|d ds IH]; intros s; simpl.
  - exists []. by repeat split.
  - destruct target as [|x].
    + destruct (IH (upd c (delete (doc_id d)) s)) as (removed & Hp & Ht & Hf & Hr).
      exists (d :: removed).
      unfold mbind, M_bind. simpl.
      destruct (result (for_of Declared ds (deleteOne c) _)) as [e|[]] eqn:E; simpl.
      * repeat split; [by apply prefix_cons|by rewrite Ht|by rewrite Hf|done].
      * repeat split; [by apply prefix_cons|by rewrite Ht|by rewrite Hf|].
        intros _. f_equal. by apply Hr.
    + exists []. repeat split; [apply prefix_nil|done].
Qed.

Section DeleteUser.
Context (dr : driver) (parent : option document) (args : obj).

Let userId : value := prop args "id".
Let usersPosts (s : store) : list document := select dr Post [("userId", userId)] s.

Lemma deleteUser_resolve_nil s :
  usersPosts s = [] →
  deleteUser_resolve dr parent args s
  = Outcome (inr (of_option (lookup_doc User userId s)))
            (from_option (λ d, upd User (delete (doc_id d)) s) s (lookup_doc User userId s))
            [OpFind Post [("userId", userId)]; OpFindByIdAndRemove User userId].
Proof.
  unfold usersPosts, userId. intros Hnil.
  unfold deleteUser_resolve, mbind, M_bind, find, fmap, M_fmap, findByIdAndRemove.
  simpl. rewrite Hnil. simpl.
  by destruct (lookup_doc User (prop args "id") s).
Qed.

(** In module code a non-empty result of the query stops the resolver at
    the head of the loop. *)
Lemma deleteUser_resolve_cons s :
  usersPosts s ≠ [] →
  deleteUser_resolve dr parent args s
  = Outcome (inl (ReferenceError "post")) s [OpFind Post [("userId", userId)]].
Proof.
  unfold usersPosts, userId. intros Hne.
  unfold deleteUser_resolve. rewrite bind_run. unfold find. cbn [result final trace].
  destruct (select dr Post [("userId", prop args "id")] s); [done|].
  by rewrite bind_run, for_of_undeclared.
Qed.

(** C5.  When the posts query of [deleteUser] yields a non-empty list the
    first iteration of the loop assigns the undeclared identifier [post]:
    the resolver throws a [ReferenceError]; the only store operation it
    has issued is the query, and the store is as it was, with every post
    and the user still in it. *)
Theorem deleteUser_throws_on_first_post s :
  select dr Post [("userId", prop args "id")] s ≠ [] →
  let o := deleteUser_resolve dr parent args s in
  result o = inl (ReferenceError "post")
  ∧ final o = s
  ∧ trace o = [OpFind Post [("userId", prop args "id")]].
Proof. intros Hne. cbv zeta. by rewrite deleteUser_resolve_cons. Qed.

(** The store operations of [deleteUser]: the query, and the removal of
    the user when the query selected nothing.  No removal of a post is
    ever among them. *)
Lemma deleteUser_trace s :
  trace (deleteUser_resolve dr parent args s)
  = OpFind Post [("userId", userId)]
    :: (if decide (usersPosts s = []) then [OpFindByIdAndRemove User userId] else []).
Proof.
  destruct (decide (usersPosts s = [])) as [Hnil|Hne].
  - by rewrite deleteUser_resolve_nil.
  - by rewrite deleteUser_resolve_cons.
Qed.

Lemma deleteUser_issues_no_removal s id :
  OpDeleteOne Post id ∉ trace (deleteUser_resolve dr parent args s).
Proof.
  rewrite deleteUser_trace. intros [?|Hin]%elem_of_cons; [done|].
  destruct (decide (usersPosts s = [])).
  - by apply elem_of_cons in Hin as [?|?%elem_of_nil].
  - by apply elem_of_nil in Hin.
Qed.

(** [deleteUser] removes no post, in any store and for any user. *)
Lemma deleteUser_keeps_posts s :
  post_docs (final (deleteUser_resolve dr parent args s)) = post_docs s.
Proof.
  destruct (decide (usersPosts s = [])) as [Hnil|Hne].
  - rewrite deleteUser_resolve_nil by done. simpl.
    by destruct (lookup_doc User userId s).
  - by rewrite deleteUser_resolve_cons.
Qed.

End DeleteUser.

Lemma deleteUser_throws_on_first_post_witness :
  select (Driver true true) Post [("userId", prop {[ "id" := VStr "u1" ]} "id")] st1 ≠ []
  ∧ result (deleteUser_resolve (Driver true true) None {[ "id" := VStr "u1" ]} st1)
    = inl (ReferenceError "post")
  ∧ final (deleteUser_resolve (Driver true true) None {[ "id" := VStr "u1" ]} st1) = st1
  ∧ trace (deleteUser_resolve (Driver true true) None {[ "id" := VStr "u1" ]} st1)
    = [OpFind Post [("userId", prop {[ "id" := VStr "u1" ]} "id")]].
Proof.
  assert (select (Driver true true) Post [("userId", prop {[ "id" := VStr "u1" ]} "id")] st1 ≠ [])
    as Hne by (vm_compute; discriminate).
  split; [exact Hne|].
  exact (deleteUser_throws_on_first_post (Driver true true) None {[ "id" := VStr "u1" ]} st1 Hne).
Defined.

(** C3 (as the code has it), at a user with one post.  The query of the
    cascade filters on [userId], which no post carries.  A driver that
    sends the filter as it is finds nothing: the user is removed and the
    post stays.  A driver that drops the unknown path finds every post:
    the loop throws and neither the post nor the user is removed. *)
Theorem deleteUser_cascade_misses dr :
  let o := deleteUser_resolve dr None {[ "id" := VStr "u1" ]} st1 in
  length (posts_of "u1" st1) = 1
  ∧ posts_of "u1" (final o) = posts_of "u1" st1
  ∧ if strictQuery dr
    then result o = inl (ReferenceError "post") ∧ final o = st1
    else result o = inr (RDoc (Doc "u1" alex)) ∧ final o = Store ∅ (post_docs st1).
Proof. destruct dr as [[] []]; vm_compute; repeat split. Qed.

(** C7 (as the code has it), at a user with one post and a driver that
    sends the filter as it is.  The query of the cascade selects nothing,
    no removal of a post is issued, and the user is removed while the post
    that depends on it is still in the store: the removal of the user is
    not preceded by the removals of its posts. *)
Theorem deleteUser_removes_user_with_post_left om :
  let o := deleteUser_resolve (Driver false om) None {[ "id" := VStr "u1" ]} st1 in
  posts_of "u1" st1 = [Doc "p1" hello]
  ∧ trace o = [OpFind Post [("userId", VStr "u1")]; OpFindByIdAndRemove User (VStr "u1")]
  ∧ user_docs (final o) !! "u1" = None
  ∧ posts_of "u1" (final o) = [Doc "p1" hello].
Proof. destruct om; vm_compute; repeat split. Qed.

(** ** [deletePost] and repeated invocations *)

Lemma upd_id c s : upd c (λ m, m) s = s.
Proof. by destruct c, s. Qed.

Lemma store_eq s1 s2 : (∀ c, sel c s1 = sel c s2) → s1 = s2.
Proof.
  intros H. destruct s1, s2. pose proof (H User). pose proof (H Post).
  simpl in *. by subst.
Qed.

Lemma fmap_idempotent {A B} (f : A → B) (m : M A) s :
  idempotent_at m s → idempotent_at (f <$> m) s.
Proof.
  unfold idempotent_at, fmap, M_fmap. simpl. intros [Hr Hf]. by rewrite Hr, Hf.
Qed.

Lemma fmap_final {A B} (f : A → B) (m : M A) s : final ((f <$> m) s) = final (m s).
Proof. done. Qed.

(** The store assigns a new identifier at each [save]: a second [save]
    adds a second document. *)
Lemma save_twice c o s :
  final (save c o (final (save c o s))) ≠ final (save c o s).
Proof.
  unfold save. simpl. intros Hf.
  set (k := fresh (dom (sel c s))) in *.
  set (s' := upd c (insert k (persisted o)) s) in *.
  set (k' := fresh (dom (sel c s'))) in *.
  assert (sel c s' !! k' = None) as Hfresh by apply not_elem_of_dom, is_fresh.
  apply (f_equal (λ s, sel c s !! k')) in Hf.
  rewrite sel_upd, lookup_insert_eq in Hf. congruence.
Qed.

Lemma createUser_not_idempotent parent args s :
  ¬ idempotent_at (createUser_resolve parent args) s.
Proof. intros [_ Hf]. by apply save_twice in Hf. Qed.

Lemma createPost_not_idempotent parent args s :
  ¬ idempotent_at (createPost_resolve parent args) s.
Proof. intros [_ Hf]. by apply save_twice in Hf. Qed.

Lemma upd_upd c f g s : upd c f (upd c g s) = upd c (f ∘ g) s.
Proof. by destruct c. Qed.

Lemma apply_set_twice dr patch o :
  apply_set dr patch (apply_set dr patch o) = apply_set dr patch o.
Proof. unfold apply_set. by rewrite (assoc_L (∪)), (idemp_L (∪)). Qed.

Lemma findByIdAndUpdate_idempotent dr c id patch s :
  idempotent_at (findByIdAndUpdate dr c id patch) s.
Proof.
  unfold idempotent_at, findByIdAndUpdate.
  destruct (lookup_doc c id s) as [[k o]|] eqn:E; simpl.
  - destruct id as [| |k']; try done. simpl in E.
    destruct (sel c s !! k') as [o'|] eqn:E'; [|done]. injection E as -> ->.
    simpl. rewrite sel_upd, lookup_insert_eq. simpl.
    rewrite apply_set_twice. split; [done|].
    rewrite upd_upd. apply store_eq. intros c'. destruct (decide (c' = c)) as [->|Hne].
    + rewrite !sel_upd. simpl. by rewrite insert_insert_eq.
    + by rewrite !sel_upd_ne.
  - by rewrite E.
Qed.

Lemma updatePost_idempotent dr parent args s :
  idempotent_at (updatePost_resolve dr parent args) s.
Proof. apply fmap_idempotent, findByIdAndUpdate_idempotent. Qed.

Lemma findByIdAndRemove_absent c id s :
  sel c s !! id = None →
  findByIdAndRemove c (VStr id) s = Outcome (inr None) s [OpFindByIdAndRemove c (VStr id)].
Proof. intros H. unfold findByIdAndRemove. simpl. by rewrite H. Qed.

Lemma findByIdAndRemove_final c id s :
  sel c (final (findByIdAndRemove c (VStr id) s)) !! id = None.
Proof.
  unfold findByIdAndRemove. simpl. destruct (sel c s !! id) eqn:E; simpl; [|done].
  rewrite sel_upd. apply lookup_delete_eq.
Qed.

Lemma select_post_docs dr flt s1 s2 :
  post_docs s1 = post_docs s2 → select dr Post flt s1 = select dr Post flt s2.
Proof. unfold select, docs. simpl. by intros ->. Qed.

(** C8 (amended).  [deletePost] on an identifier that matches no post,
    and [deleteUser] on an identifier that matches no user and for which
    the query of the cascade selects no post, resolve to null and leave
    the store as it was; a delete that has returned, repeated with the same
    arguments, resolves to null and changes nothing.  It is not the only
    idempotent mutation: [updatePost] is idempotent at every store, while
    [createUser] and [createPost] are idempotent at none. *)
Theorem delete_absent_id dr parent args id s :
  prop args "id" = VStr id →
  (post_docs s !! id = None →
   deletePost_resolve parent args s
   = Outcome (inr RNull) s [OpFindByIdAndRemove Post (VStr id)])
  ∧ (user_docs s !! id = None → select dr Post [("userId", VStr id)] s = [] →
     deleteUser_resolve dr parent args s
     = Outcome (inr RNull) s
         [OpFind Post [("userId", VStr id)]; OpFindByIdAndRemove User (VStr id)])
  ∧ (∀ r, result (deletePost_resolve parent args s) = inr r →
     let s' := final (deletePost_resolve parent args s) in
     result (deletePost_resolve parent args s') = inr RNull
     ∧ final (deletePost_resolve parent args s') = s')
  ∧ (∀ r, result (deleteUser_resolve dr parent args s) = inr r →
     let s' := final (deleteUser_resolve dr parent args s) in
     result (deleteUser_resolve dr parent args s') = inr RNull
     ∧ final (deleteUser_resolve dr parent args s') = s')
  ∧ (∀ a s', idempotent_at (updatePost_resolve dr parent a) s')
  ∧ (∀ a s', ¬ idempotent_at (createUser_resolve parent a) s')
  ∧ (∀ a s', ¬ idempotent_at (createPost_resolve parent a) s').
Proof.
  intros Hid.
  assert (∀ s0, post_docs s0 !! id = None →
    deletePost_resolve parent args s0
    = Outcome (inr RNull) s0 [OpFindByIdAndRemove Post (VStr id)]) as HdelP.
  { intros s0 H0. unfold deletePost_resolve, fmap, M_fmap. rewrite Hid.
    by rewrite (findByIdAndRemove_absent Post). }
  assert (∀ s0, user_docs s0 !! id = None → select dr Post [("userId", VStr id)] s0 = [] →
    deleteUser_resolve dr parent args s0
    = Outcome (inr RNull) s0
        [OpFind Post [("userId", VStr id)]; OpFindByIdAndRemove User (VStr id)]) as HdelU.
  { intros s0 H0 Hsel. rewrite deleteUser_resolve_nil by by rewrite Hid.
    rewrite Hid. simpl. by rewrite H0. }
  split; [apply HdelP|]. split; [apply HdelU|]. split; [|split].
  - intros r _ s'.
    assert (post_docs s' !! id = None) as Habs.
    { unfold s', deletePost_resolve. rewrite fmap_final, Hid.
      apply (findByIdAndRemove_final Post). }
    by rewrite HdelP.
  - intros r Hr s'.
    destruct (decide (select dr Post [("userId", VStr id)] s = [])) as [Hnil|Hne].
    + assert (user_docs s' !! id = None ∧ post_docs s' = post_docs s) as [Habs Hposts].
      { unfold s'. rewrite deleteUser_resolve_nil by by rewrite Hid.
        rewrite Hid. simpl. destruct (user_docs s !! id) eqn:E; simpl; [|done].
        split; [apply lookup_delete_eq|done]. }
      rewrite HdelU; [done|done|]. by rewrite (select_post_docs _ _ _ _ Hposts).
    + rewrite deleteUser_resolve_cons in Hr by by rewrite Hid. done.
  - split; [|split].
    + intros a s'. apply updatePost_idempotent.
    + intros a s'. apply createUser_not_idempotent.
    + intros a s'. apply createPost_not_idempotent.
Qed.

Lemma delete_absent_id_witness :
  prop {[ "id" := VStr "u2" ]} "id" = VStr "u2"
  ∧ post_docs st1 !! "u2" = None
  ∧ user_docs st1 !! "u2" = None
  ∧ select (Driver false false) Post [("userId", VStr "u2")] st1 = []
  ∧ deletePost_resolve None {[ "id" := VStr "u2" ]} st1
    = Outcome (inr RNull) st1 [OpFindByIdAndRemove Post (VStr "u2")]
  ∧ deleteUser_resolve (Driver false false) None {[ "id" := VStr "u2" ]} st1
    = Outcome (inr RNull) st1
        [OpFind Post [("userId", VStr "u2")]; OpFindByIdAndRemove User (VStr "u2")].
Proof.
  assert (prop {[ "id" := VStr "u2" ]} "id" = VStr "u2") as H1 by reflexivity.
  assert (post_docs st1 !! "u2" = None) as H2 by reflexivity.
  assert (user_docs st1 !! "u2" = None) as H3 by reflexivity.
  assert (select (Driver false false) Post [("userId", VStr "u2")] st1 = []) as H4
    by (vm_compute; reflexivity).
  destruct (delete_absent_id (Driver false false) None {[ "id" := VStr "u2" ]} "u2" st1 H1)
    as (HP & HU & _).
  split; [exact H1|]. split; [exact H2|]. split; [exact H3|]. split; [exact H4|].
  split; [exact (HP H2)|exact (HU H3 H4)].
Defined.

(** C8 (as stated) fails twice.  With a driver that drops the unknown
    path [userId] the cascade query of [deleteUser] selects the post of
    [st1] for an identifier that matches no record, and the resolver
    throws instead of resolving to null.  And [updatePost], which changes
    the store, is idempotent there. *)
Lemma delete_absent_not_sole_idempotent :
  (user_docs st1 !! "u2" = None ∧ post_docs st1 !! "u2" = None
   ∧ result (deleteUser_resolve (Driver true true) None {[ "id" := VStr "u2" ]} st1)
     = inl (ReferenceError "post"))
  ∧ (idempotent_at (updatePost_resolve (Driver true true) None updatePost_args) st1
     ∧ final (updatePost_resolve (Driver true true) None updatePost_args st1) ≠ st1).
Proof.
  split; [by vm_compute|]. split; [apply updatePost_idempotent|].
  intros H. apply (f_equal (λ s, (post_docs s !! "p1") ≫= (.!! "status"))) in H.
  vm_compute in H. discriminate.
Qed.

(** ** [updatePost] *)

Lemma updatePost_args_NoDup dr : NoDup (f_args (updatePost dr)).*1.
Proof. by_computation. Qed.

(** The patch always names the three fields, given or not. *)
Lemma updatePost_patch_lookup args k :
  updatePost_patch args !! k
  = if decide (k ∈ ["title"; "description"; "status"]) then Some (prop args k) else None.
Proof.
  unfold updatePost_patch, object_literal. simpl.
  destruct (decide (k = "title")) as [->|H1]; [by rewrite lookup_insert_eq|].
  rewrite lookup_insert_ne by done.
  destruct (decide (k = "description")) as [->|H2]; [by rewrite lookup_insert_eq|].
  rewrite lookup_insert_ne by done.
  destruct (decide (k = "status")) as [->|H3]; [by rewrite lookup_insert_eq|].
  rewrite lookup_insert_ne by done. rewrite lookup_empty.
  rewrite decide_False; [done|]. intros Hin.
  repeat (apply elem_of_cons in Hin as [?|Hin]; [done|]). by apply elem_of_nil in Hin.
Qed.

Lemma cast_set_lookup dr (patch : obj) k :
  cast_set dr patch !! k
  = match patch !! k with
    | Some VUndefined => if omitUndefined dr then None else Some VNull
    | r => r
    end.
Proof.
  unfold cast_set. destruct (omitUndefined dr).
  - apply persisted_lookup.
  - rewrite lookup_fmap. by destruct (patch !! k) as [[]|].
Qed.

Lemma findByIdAndUpdate_found dr c id patch s old :
  sel c s !! id = Some old →
  findByIdAndUpdate dr c (VStr id) patch s
  = Outcome (inr (Some (Doc id (apply_set dr patch old))))
            (upd c (insert id (apply_set dr patch old)) s)
            [OpFindByIdAndUpdate c (VStr id)].
Proof. intros H. unfold findByIdAndUpdate. simpl. by rewrite H. Qed.

Lemma updatePost_resolve_found dr parent args s id old :
  prop args "id" = VStr id →
  post_docs s !! id = Some old →
  updatePost_resolve dr parent args s
  = Outcome (inr (RDoc (Doc id (apply_set dr (updatePost_patch args) old))))
            (upd Post (insert id (apply_set dr (updatePost_patch args) old)) s)
            [OpFindByIdAndUpdate Post (VStr id)].
Proof.
  intros Hid Hold. unfold updatePost_resolve, fmap, M_fmap. rewrite Hid.
  fold (updatePost_patch args).
  by rewrite (findByIdAndUpdate_found dr Post id _ s old).
Qed.

(** C6 (amended).  [updatePost] on an existing post returns and stores
    the updated post.  The patch names [title], [description] and [status]
    whether they were given or not, an omitted one with the value
    [undefined]: such a field keeps its value when the driver removes
    undefined keys from the patch and becomes null when the driver writes
    them.  The fields outside the three are untouched. *)
Theorem updatePost_omitted_fields dr given s o id old :
  invoke "updatePost" (updatePost dr) None given s = Performed o →
  given !! "id" = Some (LString id) →
  post_docs s !! id = Some old →
  ∃ new, result o = inr (FObject (RDoc (Doc id new)))
         ∧ post_docs (final o) !! id = Some new
         ∧ (∀ k, k ∈ ["title"; "description"; "status"] → given !! k = None →
              new !! k = if omitUndefined dr then old !! k else Some VNull)
         ∧ (∀ k, k ∉ ["title"; "description"; "status"] → new !! k = old !! k).
Proof.
  intros (args & Hargs & ->)%invoke_performed Hid Hold.
  pose proof (coerce_defs_declared _ _ _ _ "id" _ (updatePost_args_NoDup dr) Hargs eq_refl) as Ha.
  rewrite Hid in Ha. destruct Ha as (v & [= <-] & Ha).
  exists (apply_set dr (updatePost_patch args) old).
  unfold resolve_field, updatePost. cbn [f_resolve f_type]. unfold mbind, M_bind.
  rewrite (updatePost_resolve_found dr None args s id old); [|by unfold prop; rewrite Ha|done].
  simpl. split; [done|]. split; [apply lookup_insert_eq|]. split.
  - intros k Hk Hg.
    assert (args !! k = None) as Hnone.
    { repeat (apply elem_of_cons in Hk as [->|Hk]);
        [| | |by apply elem_of_nil in Hk].
      all: match goal with |- _ !! ?a = None =>
             pose proof (coerce_defs_declared _ _ _ _ a _ (updatePost_args_NoDup dr) Hargs eq_refl) as Hd
           end.
      all: rewrite Hg in Hd; by destruct Hd as [-> _]. }
    unfold apply_set.
    pose proof (cast_set_lookup dr (updatePost_patch args) k) as Hc.
    rewrite updatePost_patch_lookup, decide_True in Hc by done.
    unfold prop in Hc. rewrite Hnone in Hc. simpl in Hc.
    destruct (omitUndefined dr).
    + by rewrite lookup_union_r.
    + by erewrite lookup_union_Some_l.
  - intros k Hk. unfold apply_set. apply lookup_union_r.
    by rewrite cast_set_lookup, updatePost_patch_lookup, decide_False.
Qed.

Lemma updatePost_omitted_fields_witness :
  ∃ o, invoke "updatePost" (updatePost (Driver true true)) None updatePost_given st1 = Performed o
       ∧ updatePost_given !! "id" = Some (LString "p1")
       ∧ post_docs st1 !! "p1" = Some hello
       ∧ ∃ new, result o = inr (FObject (RDoc (Doc "p1" new)))
                ∧ post_docs (final o) !! "p1" = Some new
                ∧ new !! "title" = hello !! "title"
                ∧ new !! "creatorId" = hello !! "creatorId".
Proof.
  edestruct (updatePost_omitted_fields (Driver true true) updatePost_given st1)
    as (new & Hr & Hs & Homit & Hframe); [reflexivity|reflexivity|reflexivity|].
  eexists. split; [reflexivity|]. split; [reflexivity|]. split; [reflexivity|].
  exists new. split; [exact Hr|]. split; [exact Hs|]. split.
  - apply (Homit "title"); [by_computation|reflexivity].
  - apply (Hframe "creatorId"). by_computation.
Defined.

(** C6 (as stated) fails with a driver that writes undefined keys: a
    request that gives [status] only leaves the title null. *)
Lemma updatePost_overwrites_omitted :
  ∃ o new, invoke "updatePost" (updatePost (Driver false false)) None updatePost_given st1
           = Performed o
           ∧ updatePost_given !! "title" = None
           ∧ post_docs st1 !! "p1" = Some hello
           ∧ result o = inr (FObject (RDoc (Doc "p1" new)))
           ∧ prop hello "title" = VStr "Hello"
           ∧ prop new "title" = VNull.
Proof. do 2 eexists. by vm_compute. Qed.

(** ** The [creator] of a post *)

Lemma creator_resolve_spec p args s :
  creator_resolve (Some p) args s
  = Outcome (inr (of_option (lookup_doc User (creatorId p) s))) s
            [OpFindById User (creatorId p)].
Proof. done. Qed.

Lemma resolve_creator p args s :
  resolve_field "creator" creator (Some p) args s
  = Outcome (inr (FObject (of_option (lookup_doc User (creatorId p) s)))) s
            [OpFindById User (creatorId p)].
Proof.
  unfold resolve_field, creator. cbn [f_resolve f_type]. unfold mbind, M_bind.
  rewrite creator_resolve_spec. simpl.
  by destruct (lookup_doc User (creatorId p) s).
Qed.

Lemma mapM_resolve_creator ps s :
  mapM (λ p, resolve_field "creator" creator (Some p) ∅) ps s
  = Outcome (inr ((λ p, FObject (of_option (lookup_doc User (creatorId p) s))) <$> ps)) s
            ((λ p, OpFindById User (creatorId p)) <$> ps).
Proof.
  induction ps as [|p ps IH]; [done|].
  cbn [mapM]. rewrite bind_run, resolve_creator. cbn [result final trace].
  rewrite bind_run, IH. simpl. by rewrite app_nil_r.
Qed.

Lemma execute_under_creator ps s :
  execute_under PostType "creator" ps s
  = Performed
      (Outcome (inr ((λ p, FObject (of_option (lookup_doc User (creatorId p) s))) <$> ps)) s
               ((λ p, OpFindById User (creatorId p)) <$> ps)).
Proof.
  unfold execute_under, coerce_args, undeclared. cbn [assoc ot_fields PostType].
  repeat (rewrite decide_False by done). rewrite decide_True by done.
  rewrite map_to_list_empty. cbn [fmap list_fmap filter list_filter f_args creator coerce_defs].
  by rewrite mapM_resolve_creator.
Qed.

(** C9.  The [creator] field declares no argument; its resolver ignores
    [args], issues one lookup by identifier in the users, keyed by the
    [creatorId] of the parent post, and writes nothing.  When no user has
    that identifier the result is null, and a selection of [creator] under
    any list of posts still returns, with null at each position of such a
    post. *)
Theorem creator_point_lookup p args s :
  f_args creator = []
  ∧ creator_resolve (Some p) args s
    = Outcome (inr (of_option (lookup_doc User (prop (doc_fields p) "creatorId") s))) s
              [OpFindById User (prop (doc_fields p) "creatorId")]
  ∧ (lookup_doc User (prop (doc_fields p) "creatorId") s = None →
     result (creator_resolve (Some p) args s) = inr RNull
     ∧ ∀ ps, ∃ vs tr,
         execute_under PostType "creator" ps s = Performed (Outcome (inr vs) s tr)
         ∧ length vs = length ps
         ∧ ∀ i, ps !! i = Some p → vs !! i = Some (FObject RNull)).
Proof.
  split; [done|]. split; [apply creator_resolve_spec|]. intros Hnone.
  split; [by rewrite creator_resolve_spec; unfold creatorId; rewrite Hnone|].
  intros ps. do 2 eexists. split; [apply execute_under_creator|].
  split; [by rewrite length_fmap|].
  intros i Hi. rewrite list_lookup_fmap, Hi. simpl. unfold creatorId. by rewrite Hnone.
Qed.

Lemma creator_point_lookup_witness :
  lookup_doc User (prop hello "creatorId") st_orphan = None
  ∧ result (creator_resolve (Some (Doc "p1" hello)) ∅ st_orphan) = inr RNull
  ∧ ∃ vs tr,
      execute_under PostType "creator" (docs Post st_orphan) st_orphan
      = Performed (Outcome (inr vs) st_orphan tr)
      ∧ vs !! 0 = Some (FObject RNull).
Proof.
  assert (lookup_doc User (prop hello "creatorId") st_orphan = None) as Hnone by reflexivity.
  destruct (creator_point_lookup (Doc "p1" hello) ∅ st_orphan) as (_ & _ & H).
  destruct (H Hnone) as [Hr Hq].
  split; [exact Hnone|]. split; [exact Hr|].
  destruct (Hq (docs Post st_orphan)) as (vs & tr & He & _ & Hv).
  exists vs, tr. split; [exact He|]. apply Hv. by vm_compute.
Defined.

(** * Further properties of the resolvers *)

(** ** Accepted and rejected requests *)

Lemma createUser_args_NoDup : NoDup (f_args createUser).*1.
Proof. by_computation. Qed.

Lemma coerce_defs_string field defs given args a t :
  NoDup defs.*1 →
  coerce_defs field defs given = inr args →
  assoc a defs = Some (Arg (GraphQLNonNull t) None) →
  t = GraphQLString ∨ t = GraphQLID →
  ∃ x, given !! a = Some (LString x) ∧ args !! a = Some (VStr x).
Proof.
  intros Hnd Hargs Ha Ht.
  pose proof (coerce_defs_declared _ _ _ _ _ _ Hnd Hargs Ha) as Hd.
  destruct (given !! a) as [l|].
  - destruct Hd as (v & Hv & Hl). simpl in Hv.
    apply coerce_nonnull_string in Hv as (x & -> & ->); [|done]. eauto.
  - destruct Hd as [_ Hd]. by specialize (Hd eq_refl).
Qed.

Lemma prop_Some (o : obj) k v : o !! k = Some v → prop o k = v.
Proof. unfold prop. by intros ->. Qed.

(** A declared argument that is missing though required, or whose literal
    is not of its type, stops the request. *)
Lemma coerce_args_rejects field defs given a cfg :
  NoDup defs.*1 →
  assoc a defs = Some cfg →
  match given !! a with
  | None => a_defaultValue cfg = None ∧ is_nonnull (a_type cfg) = true
  | Some l => coerce_literal (a_type cfg) l = None
  end →
  ∃ e, coerce_args field defs given = inl e.
Proof.
  intros Hnd Ha Hbad. unfold coerce_args.
  destruct (undeclared defs given); [|eauto].
  destruct (coerce_defs field defs given) as [e|args] eqn:E; [eauto|].
  pose proof (coerce_defs_declared _ _ _ _ _ _ Hnd E Ha) as Hd.
  destruct (given !! a) as [l|].
  - destruct Hd as (v & Hv & _). congruence.
  - destruct Hbad as [Hdef Hnn]. destruct Hd as [_ Hd]. specialize (Hd Hdef). congruence.
Qed.

Lemma invoke_rejects field cfg parent given s a acfg :
  NoDup (f_args cfg).*1 →
  assoc a (f_args cfg) = Some acfg →
  match given !! a with
  | None => a_defaultValue acfg = None ∧ is_nonnull (a_type acfg) = true
  | Some l => coerce_literal (a_type acfg) l = None
  end →
  ∃ e, invoke field cfg parent given s = Rejected e.
Proof.
  intros Hnd Ha Hbad. unfold invoke.
  destruct (coerce_args_rejects field _ given a acfg Hnd Ha Hbad) as [e ->]. eauto.
Qed.

Lemma mutation_args_NoDup dr f cfg :
  (f, cfg) ∈ ot_fields (mutation dr) → NoDup (f_args cfg).*1.
Proof.
  intros Hin. simpl in Hin.
  repeat (apply elem_of_cons in Hin as [[= -> ->] | Hin]; [by_computation|]).
  by apply elem_of_nil in Hin.
Qed.

Lemma assoc_elem_of {A} a (x : A) l : NoDup l.*1 → (a, x) ∈ l → assoc a l = Some x.
Proof.
  induction l as [|[a' x'] l IH]; simpl; [by intros _ ?%elem_of_nil|].
  intros [Hfresh Hnd]%NoDup_cons [[= -> ->] | Hin]%elem_of_cons.
  - by rewrite decide_True.
  - rewrite decide_False; [by apply IH|].
    intros ->. apply Hfresh. apply list_elem_of_fmap. by exists (a', x).
Qed.

(** X3.  Each mutation declares its required arguments with
    [GraphQLNonNull]: the three text fields of [createUser], the [id] of
    [deleteUser], [updatePost] and [deletePost], and [creatorId], [title]
    and [description] of [createPost].  A request that leaves one of them
    out, or gives it as null, is rejected and no resolver runs. *)
Theorem required_arguments_enforced dr :
  required createUser = ["firstName"; "email"; "phone"]
  ∧ required (deleteUser dr) = ["id"]
  ∧ required createPost = ["creatorId"; "title"; "description"]
  ∧ required (updatePost dr) = ["id"]
  ∧ required deletePost = ["id"]
  ∧ ∀ f cfg a given parent s,
      (f, cfg) ∈ ot_fields (mutation dr) →
      a ∈ required cfg →
      given !! a = None ∨ given !! a = Some LNull →
      ∃ e, invoke f cfg parent given s = Rejected e.
Proof.
  do 5 (split; [reflexivity|]).
  intros f cfg a given parent s Hf Ha Hg.
  pose proof (mutation_args_NoDup dr f cfg Hf) as Hnd.
  unfold required in Ha. apply list_elem_of_fmap in Ha as ([a' acfg] & -> & Ha).
  apply list_elem_of_filter in Ha as [[Hnn Hdef] Hin]. simpl in *.
  apply (invoke_rejects f cfg parent given s a' acfg Hnd); [by apply assoc_elem_of|].
  destruct Hg as [-> | ->].
  - split; [done|]. by destruct (is_nonnull (a_type acfg)).
  - by destruct (a_type acfg).
Qed.

Lemma required_arguments_enforced_witness :
  ("createUser", createUser) ∈ ot_fields (mutation (Driver false false))
  ∧ "email" ∈ required createUser
  ∧ delete "email" createUser_given !! "email" = None
  ∧ ∃ e, invoke "createUser" createUser None (delete "email" createUser_given) st1 = Rejected e.
Proof.
  assert (("createUser", createUser) ∈ ot_fields (mutation (Driver false false))) as H1
    by (apply elem_of_cons; left; reflexivity).
  assert ("email" ∈ required createUser) as H2 by by_computation.
  assert (delete "email" createUser_given !! "email" = None) as H3 by reflexivity.
  destruct (required_arguments_enforced (Driver false false)) as (_ & _ & _ & _ & _ & H).
  split; [exact H1|]. split; [exact H2|]. split; [exact H3|].
  exact (H "createUser" createUser "email" (delete "email" createUser_given) None st1
           H1 H2 (or_introl H3)).
Defined.

(** ** [createUser] and the resolver of [user] *)

Lemma persisted_id (o : obj) :
  (∀ k, o !! k ≠ Some VUndefined) → persisted o = o.
Proof.
  intros H. apply map_eq. intros k. rewrite persisted_lookup.
  specialize (H k). by destruct (o !! k) as [[]|].
Qed.

Lemma upd_User f s : upd User f s = Store (f (user_docs s)) (post_docs s).
Proof. done. Qed.

Lemma upd_Post f s : upd Post f s = Store (user_docs s) (f (post_docs s)).
Proof. done. Qed.

(** X1.  An accepted [createUser] request gives the three text fields as
    strings.  The resolver stores a record with exactly these three
    fields under an identifier no user had, returns it, and leaves every
    other user and every post as it was. *)
Theorem createUser_persists_arguments given s o :
  invoke "createUser" createUser None given s = Performed o →
  ∃ f e p k,
    given !! "firstName" = Some (LString f)
    ∧ given !! "email" = Some (LString e)
    ∧ given !! "phone" = Some (LString p)
    ∧ user_docs s !! k = None
    ∧ o = Outcome
            (inr (FObject (RDoc (Doc k (object_literal
               [("firstName", VStr f); ("email", VStr e); ("phone", VStr p)])))))
            (Store (<[k := object_literal
                       [("firstName", VStr f); ("email", VStr e); ("phone", VStr p)]]>
                      (user_docs s))
                   (post_docs s))
            [OpSave User k].
Proof.
  intros (args & Hargs & ->)%invoke_performed.
  destruct (coerce_defs_string _ _ _ _ "firstName" GraphQLString
              createUser_args_NoDup Hargs eq_refl) as (f & Hf & Haf); [by left|].
  destruct (coerce_defs_string _ _ _ _ "email" GraphQLString
              createUser_args_NoDup Hargs eq_refl) as (e & He & Hae); [by left|].
  destruct (coerce_defs_string _ _ _ _ "phone" GraphQLString
              createUser_args_NoDup Hargs eq_refl) as (p & Hp & Hap); [by left|].
  exists f, e, p, (fresh (dom (user_docs s))).
  split; [done|]. split; [done|]. split; [done|].
  split; [apply not_elem_of_dom, is_fresh|].
  unfold resolve_field, createUser. cbn [f_resolve f_type]. rewrite bind_run.
  unfold createUser_resolve, fmap, M_fmap, save. cbn [result final trace sel].
  rewrite (prop_Some _ _ _ Haf), (prop_Some _ _ _ Hae), (prop_Some _ _ _ Hap).
  rewrite persisted_id; [done|].
  intros k. unfold object_literal. simpl.
  destruct (decide (k = "firstName")) as [->|?]; [by rewrite lookup_insert_eq|].
  rewrite lookup_insert_ne by done.
  destruct (decide (k = "email")) as [->|?]; [by rewrite lookup_insert_eq|].
  rewrite lookup_insert_ne by done.
  destruct (decide (k = "phone")) as [->|?]; [by rewrite lookup_insert_eq|].
  by rewrite lookup_insert_ne.
Qed.

Lemma createUser_persists_arguments_witness :
  ∃ o, invoke "createUser" createUser None createUser_given st1 = Performed o
       ∧ ∃ k, user_docs st1 !! k = None
              ∧ result o = inr (FObject (RDoc (Doc k alex)))
              ∧ final o = Store (<[k := alex]> (user_docs st1)) (post_docs st1).
Proof.
  edestruct (createUser_persists_arguments createUser_given st1)
    as (f & e & p & k & Hf & He & Hp & Hk & Ho); [reflexivity|].
  injection Hf as <-. injection He as <-. injection Hp as <-.
  eexists. split; [reflexivity|]. exists k. split; [exact Hk|].
  split; [exact (f_equal result Ho)|exact (f_equal final Ho)].
Defined.

(** X2.  A user that [createUser] has returned is found again by the
    resolver of [user], on the store [createUser] left, when it is given
    the identifier of that user. *)
Theorem createUser_then_user given s o d parent args :
  invoke "createUser" createUser None given s = Performed o →
  result o = inr (FObject (RDoc d)) →
  prop args "id" = VStr (doc_id d) →
  user_resolve parent args (final o)
  = Outcome (inr (RDoc d)) (final o) [OpFindById User (VStr (doc_id d))].
Proof.
  intros (args' & Hargs & ->)%invoke_performed.
  unfold resolve_field, createUser. cbn [f_resolve f_type]. rewrite bind_run.
  unfold createUser_resolve, fmap, M_fmap, save. cbn [result final trace sel].
  intros [= <-] Hid.
  unfold user_resolve, fmap, M_fmap, findById. rewrite Hid.
  simpl. by rewrite lookup_insert_eq.
Qed.

Lemma createUser_then_user_witness :
  ∃ o d, invoke "createUser" createUser None createUser_given st1 = Performed o
         ∧ result o = inr (FObject (RDoc d))
         ∧ prop {[ "id" := VStr (doc_id d) ]} "id" = VStr (doc_id d)
         ∧ user_resolve None {[ "id" := VStr (doc_id d) ]} (final o)
           = Outcome (inr (RDoc d)) (final o) [OpFindById User (VStr (doc_id d))].
Proof.
  do 2 eexists. split; [reflexivity|]. split; [reflexivity|]. split; [reflexivity|].
  apply (createUser_then_user createUser_given st1); reflexivity.
Defined.

(** ** The exported schema, again *)






(** X14.  The resolvers written for [users] and [posts] return every
    record of their collection exactly once, whatever the driver does to
    filters, and leave the store as it was. *)
Theorem list_resolvers_complete dr parent args s :
  (∃ ds, users_resolve dr parent args s = Outcome (inr (RList ds)) s [OpFind User []]
         ∧ NoDup ds
         ∧ length ds = size (user_docs s)
         ∧ ∀ d, d ∈ ds ↔ user_docs s !! doc_id d = Some (doc_fields d))
  ∧ (∃ ds, posts_resolve dr parent args s = Outcome (inr (RList ds)) s [OpFind Post []]
           ∧ NoDup ds
           ∧ length ds = size (post_docs s)
           ∧ ∀ d, d ∈ ds ↔ post_docs s !! doc_id d = Some (doc_fields d)).
Proof.
  split.
  - exists (docs User s). unfold users_resolve, find, fmap, M_fmap. simpl.
    rewrite select_all. split; [done|]. split; [apply docs_NoDup|].
    split; [|intros d; apply (elem_of_docs User)].
    unfold docs. by rewrite length_fmap, length_map_to_list.
  - exists (docs Post s). unfold posts_resolve, find, fmap, M_fmap. simpl.
    rewrite select_all. split; [done|]. split; [apply docs_NoDup|].
    split; [|intros d; apply (elem_of_docs Post)].
    unfold docs. by rewrite length_fmap, length_map_to_list.
Qed.

(** ** [createPost] *)

Lemma resolve_createPost parent args s :
  resolve_field "createPost" createPost parent args s
  = let k := fresh (dom (post_docs s)) in
    let fields := persisted (object_literal
                    [("creatorId", prop args "userId"); ("title", prop args "title");
                     ("description", prop args "description");
                     ("status", prop args "status")]) in
    Outcome (inr (FObject (RDoc (Doc k fields))))
            (Store (user_docs s) (<[k := fields]> (post_docs s))) [OpSave Post k].
Proof.
  unfold resolve_field, createPost. cbn [f_resolve f_type]. rewrite bind_run.
  by unfold createPost_resolve, fmap, M_fmap, save.
Qed.

(** X4.  An accepted [createPost] request gives [title] and [description]
    as strings.  The resolver stores a record with exactly the fields
    [title], [description] and [status], the first two as given, under an
    identifier no post had, returns it, and leaves every other post and
    every user as it was. *)
Theorem createPost_persists_text given s o :
  invoke "createPost" createPost None given s = Performed o →
  ∃ t de st k,
    given !! "title" = Some (LString t)
    ∧ given !! "description" = Some (LString de)
    ∧ st ≠ VUndefined
    ∧ post_docs s !! k = None
    ∧ o = Outcome
            (inr (FObject (RDoc (Doc k (object_literal
               [("title", VStr t); ("description", VStr de); ("status", st)])))))
            (Store (user_docs s)
                   (<[k := object_literal
                       [("title", VStr t); ("description", VStr de); ("status", st)]]>
                      (post_docs s)))
            [OpSave Post k].
Proof.
  intros (args & Hargs & ->)%invoke_performed.
  destruct (coerce_defs_string _ _ _ _ "title" GraphQLString
              createPost_args_NoDup Hargs eq_refl) as (t & Ht & Hat); [by left|].
  destruct (coerce_defs_string _ _ _ _ "description" GraphQLString
              createPost_args_NoDup Hargs eq_refl) as (de & Hde & Had); [by left|].
  pose proof (coerce_defs_undeclared _ _ _ _ "userId" Hargs eq_refl) as Hu.
  pose proof (coerce_defs_declared _ _ _ _ "status" _ createPost_args_NoDup Hargs eq_refl) as Hs.
  assert (∃ st, args !! "status" = Some st ∧ st ≠ VUndefined) as (st & Hst & Hdef).
  { destruct (given !! "status") as [l|].
    - destruct Hs as (v & Hv & Ha). exists v. split; [done|].
      intros ->. by apply coerce_literal_defined in Hv.
    - destruct Hs as [Ha _]. by exists (VStr "Not Started"). }
  exists t, de, st, (fresh (dom (post_docs s))).
  split; [done|]. split; [done|]. split; [done|].
  split; [apply not_elem_of_dom, is_fresh|].
  rewrite resolve_createPost. cbv zeta.
  rewrite (prop_Some _ _ _ Hat), (prop_Some _ _ _ Had), (prop_Some _ _ _ Hst).
  assert (prop args "userId" = VUndefined) as -> by (unfold prop; by rewrite Hu).
  assert (persisted (object_literal
            [("creatorId", VUndefined); ("title", VStr t); ("description", VStr de);
             ("status", st)])
          = object_literal [("title", VStr t); ("description", VStr de); ("status", st)])
    as ->; [|done].
  apply map_eq. intros k. rewrite persisted_lookup. unfold object_literal. simpl.
  destruct (decide (k = "creatorId")) as [->|?].
  { rewrite lookup_insert_eq. by rewrite !lookup_insert_ne. }
  rewrite (lookup_insert_ne _ "creatorId") by done.
  destruct (decide (k = "title")) as [->|?]; [by rewrite !lookup_insert_eq|].
  rewrite !(lookup_insert_ne _ "title") by done.
  destruct (decide (k = "description")) as [->|?]; [by rewrite !lookup_insert_eq|].
  rewrite !(lookup_insert_ne _ "description") by done.
  destruct (decide (k = "status")) as [->|?].
  { rewrite !lookup_insert_eq. by destruct st. }
  by rewrite !(lookup_insert_ne _ "status").
Qed.

Lemma createPost_persists_text_witness :
  ∃ o, invoke "createPost" createPost None createPost_given st1 = Performed o
       ∧ ∃ st k, post_docs st1 !! k = None
                 ∧ final o
                   = Store (user_docs st1)
                       (<[k := object_literal
                           [("title", VStr "Hello"); ("description", VStr "First Post!");
                            ("status", st)]]> (post_docs st1)).
Proof.
  edestruct (createPost_persists_text createPost_given st1)
    as (t & de & st & k & Ht & Hde & _ & Hk & Ho); [reflexivity|].
  injection Ht as <-. injection Hde as <-.
  eexists. split; [reflexivity|]. exists st, k. split; [exact Hk|exact (f_equal final Ho)].
Defined.

(** X5.  The creator of a post that [createPost] has returned resolves to
    null in every store, also in one that holds the user whose identifier
    the request gave: the record has no [creatorId] and the lookup is made
    with [undefined]. *)
Theorem createPost_creator_null given s o d :
  invoke "createPost" createPost None given s = Performed o →
  result o = inr (FObject (RDoc d)) →
  ∀ args s', creator_resolve (Some d) args s'
             = Outcome (inr RNull) s' [OpFindById User VUndefined].
Proof.
  intros (args & Hargs & ->)%invoke_performed.
  pose proof (coerce_defs_undeclared _ _ _ _ "userId" Hargs eq_refl) as Hu.
  rewrite resolve_createPost. cbv zeta. cbn [result]. intros [= <-] args' s'.
  rewrite creator_resolve_spec. unfold creatorId. cbn [doc_fields].
  rewrite prop_persisted. unfold prop at 1 2, object_literal. simpl.
  rewrite !lookup_insert_eq. unfold prop. by rewrite Hu.
Qed.

Lemma createPost_creator_null_witness :
  ∃ o d, invoke "createPost" createPost None createPost_given st1 = Performed o
         ∧ result o = inr (FObject (RDoc d))
         ∧ createPost_given !! "creatorId" = Some (LString "u1")
         ∧ user_docs (final o) !! "u1" = Some alex
         ∧ creator_resolve (Some d) ∅ (final o)
           = Outcome (inr RNull) (final o) [OpFindById User VUndefined].
Proof.
  do 2 eexists. split; [reflexivity|]. split; [reflexivity|].
  split; [reflexivity|]. split; [reflexivity|].
  eapply (createPost_creator_null createPost_given st1); reflexivity.
Defined.

(** ** [deletePost] *)

(** X6.  [deletePost] on the identifier of a stored post returns that
    post and removes it and nothing else: the other posts and the users
    stay, and a lookup of the post by the same identifier then resolves to
    null. *)
Theorem deletePost_removes_exactly parent args id fields s :
  prop args "id" = VStr id →
  post_docs s !! id = Some fields →
  let o := deletePost_resolve parent args s in
  o = Outcome (inr (RDoc (Doc id fields)))
              (Store (user_docs s) (delete id (post_docs s)))
              [OpFindByIdAndRemove Post (VStr id)]
  ∧ (∀ k, k ≠ id → post_docs (final o) !! k = post_docs s !! k)
  ∧ result (post_resolve parent args (final o)) = inr RNull.
Proof.
  intros Hid Hf. cbv zeta.
  assert (deletePost_resolve parent args s
          = Outcome (inr (RDoc (Doc id fields)))
              (Store (user_docs s) (delete id (post_docs s)))
              [OpFindByIdAndRemove Post (VStr id)]) as ->.
  { unfold deletePost_resolve, fmap, M_fmap, findByIdAndRemove. rewrite Hid. simpl.
    by rewrite Hf. }
  split; [done|]. simpl. split.
  - intros k Hk. by apply lookup_delete_ne.
  - unfold post_resolve, fmap, M_fmap, findById. rewrite Hid. simpl.
    by rewrite lookup_delete_eq.
Qed.

Lemma deletePost_removes_exactly_witness :
  prop {[ "id" := VStr "p1" ]} "id" = VStr "p1"
  ∧ post_docs st1 !! "p1" = Some hello
  ∧ deletePost_resolve None {[ "id" := VStr "p1" ]} st1
    = Outcome (inr (RDoc (Doc "p1" hello)))
              (Store (user_docs st1) (delete "p1" (post_docs st1)))
              [OpFindByIdAndRemove Post (VStr "p1")].
Proof.
  assert (prop {[ "id" := VStr "p1" ]} "id" = VStr "p1") as H1 by reflexivity.
  assert (post_docs st1 !! "p1" = Some hello) as H2 by reflexivity.
  split; [exact H1|]. split; [exact H2|].
  exact (proj1 (deletePost_removes_exactly None {[ "id" := VStr "p1" ]} "p1" hello st1 H1 H2)).
Defined.

(** ** [updatePost] *)

(** X7.  [updatePost] on an identifier that matches no post resolves to
    null and leaves the store as it was, whatever fields the request
    gives. *)
Theorem updatePost_absent_id dr parent args id s :
  prop args "id" = VStr id →
  post_docs s !! id = None →
  updatePost_resolve dr parent args s
  = Outcome (inr RNull) s [OpFindByIdAndUpdate Post (VStr id)].
Proof.
  intros Hid Hnone. unfold updatePost_resolve, fmap, M_fmap, findByIdAndUpdate.
  rewrite Hid. simpl. by rewrite Hnone.
Qed.

Lemma updatePost_absent_id_witness :
  prop {[ "id" := VStr "p2"; "title" := VStr "banana" ]} "id" = VStr "p2"
  ∧ post_docs st1 !! "p2" = None
  ∧ updatePost_resolve (Driver false false) None
      {[ "id" := VStr "p2"; "title" := VStr "banana" ]} st1
    = Outcome (inr RNull) st1 [OpFindByIdAndUpdate Post (VStr "p2")].
Proof.
  assert (prop {[ "id" := VStr "p2"; "title" := VStr "banana" ]} "id" = VStr "p2") as H1
    by reflexivity.
  assert (post_docs st1 !! "p2" = None) as H2 by reflexivity.
  split; [exact H1|]. split; [exact H2|].
  exact (updatePost_absent_id (Driver false false) None _ "p2" st1 H1 H2).
Defined.

(** X9.  [updatePost] never touches a user, never adds or removes a
    post, and changes no post other than the one whose identifier it is
    given. *)
Theorem updatePost_frame dr parent args s :
  let o := updatePost_resolve dr parent args s in
  user_docs (final o) = user_docs s
  ∧ dom (post_docs (final o)) = dom (post_docs s)
  ∧ ∀ k, prop args "id" ≠ VStr k → post_docs (final o) !! k = post_docs s !! k.
Proof.
  cbv zeta. unfold updatePost_resolve, fmap, M_fmap, findByIdAndUpdate.
  destruct (prop args "id") as [| |id]; simpl; try done.
  destruct (post_docs s !! id) as [old|] eqn:E; simpl; [|done].
  split; [done|]. split.
  - by apply dom_insert_lookup_L.
  - intros k Hk. apply lookup_insert_ne. congruence.
Qed.

(** X8.  On an existing post, a field that an accepted [updatePost]
    request gives takes the value given, for every driver: a string for
    [title] and [description], the constant of the token for [status], and
    null when the request gives null. *)
Theorem updatePost_supplied_fields dr given s o id old :
  invoke "updatePost" (updatePost dr) None given s = Performed o →
  given !! "id" = Some (LString id) →
  post_docs s !! id = Some old →
  ∃ new, result o = inr (FObject (RDoc (Doc id new)))
         ∧ post_docs (final o) !! id = Some new
         ∧ ∀ k cfg l, k ≠ "id" →
             assoc k (f_args (updatePost dr)) = Some cfg →
             given !! k = Some l →
             is_Some (new !! k) ∧ new !! k = coerce_literal (a_type cfg) l.
Proof.
  intros (args & Hargs & ->)%invoke_performed Hid Hold.
  pose proof (coerce_defs_declared _ _ _ _ "id" _ (updatePost_args_NoDup dr) Hargs eq_refl) as Ha.
  rewrite Hid in Ha. destruct Ha as (v & [= <-] & Ha).
  exists (apply_set dr (updatePost_patch args) old).
  unfold resolve_field, updatePost. cbn [f_resolve f_type]. rewrite bind_run.
  rewrite (updatePost_resolve_found dr None args s id old); [|by apply prop_Some|done].
  simpl. split; [done|]. split; [apply lookup_insert_eq|].
  intros k cfg l Hk Hcfg Hg.
  pose proof (coerce_defs_declared _ _ _ _ k _ (updatePost_args_NoDup dr) Hargs Hcfg) as Hd.
  rewrite Hg in Hd. destruct Hd as (v & Hv & Hak).
  assert (k ∈ ["title"; "description"; "status"]) as Hin.
  { simpl in Hcfg. rewrite decide_False in Hcfg by done.
    destruct (decide (k = "title")) as [->|]; [by_computation|].
    destruct (decide (k = "description")) as [->|]; [by_computation|].
    destruct (decide (k = "status")) as [->|]; [by_computation|done]. }
  assert (v ≠ VUndefined) as Hdef by (intros ->; by apply coerce_literal_defined in Hv).
  assert (apply_set dr (updatePost_patch args) old !! k = Some v) as Hnew.
  { unfold apply_set. apply lookup_union_Some_l.
    rewrite cast_set_lookup, updatePost_patch_lookup, decide_True by done.
    rewrite (prop_Some _ _ _ Hak). by destruct v. }
  rewrite Hnew, Hv. eauto.
Qed.

Lemma updatePost_supplied_fields_witness :
  ∃ o, invoke "updatePost" (updatePost (Driver false false)) None updatePost_given st1
       = Performed o
       ∧ updatePost_given !! "id" = Some (LString "p1")
       ∧ post_docs st1 !! "p1" = Some hello
       ∧ ∃ new, post_docs (final o) !! "p1" = Some new
                ∧ new !! "status" = Some (VStr "Completed").
Proof.
  edestruct (updatePost_supplied_fields (Driver false false) updatePost_given st1)
    as (new & _ & Hs & Hk); [reflexivity|reflexivity|reflexivity|].
  eexists. split; [reflexivity|]. split; [reflexivity|]. split; [reflexivity|].
  exists new. split; [exact Hs|].
  destruct (Hk "status" (Arg PostStatusUpdate None) (LEnum "completed")) as [_ H];
    [discriminate|reflexivity|reflexivity|exact H].
Defined.

(** X15.  The status of a post is given by one of the tokens [new],
    [progress], [completed]: a [createPost] or [updatePost] request whose
    [status] is a string, or a token outside the three, is rejected and no
    resolver runs. *)
Theorem status_tokens_enforced dr given parent s l :
  given !! "status" = Some l →
  (∃ x, l = LString x)
  ∨ (∃ t, l = LEnum t ∧ t ∉ ["new"; "progress"; "completed"]) →
  (∃ e, invoke "createPost" createPost parent given s = Rejected e)
  ∧ (∃ e, invoke "updatePost" (updatePost dr) parent given s = Rejected e).
Proof.
  intros Hg Hl.
  assert (∀ n, coerce_literal
                 (GraphQLEnumType n
                    [("new", "Not Started"); ("progress", "In Progress");
                     ("completed", "Completed")]) l = None) as Hbad.
  { intros n. destruct Hl as [[x ->] | (t & -> & Ht)]; [done|]. simpl.
    repeat (destruct (decide _) as [->|]; [exfalso; apply Ht; by_computation|]).
    done. }
  split.
  - apply (invoke_rejects _ _ _ _ _ "status" (Arg PostStatus (Some (VStr "Not Started")))
             createPost_args_NoDup eq_refl).
    rewrite Hg. apply Hbad.
  - apply (invoke_rejects _ _ _ _ _ "status" (Arg PostStatusUpdate None)
             (updatePost_args_NoDup dr) eq_refl).
    rewrite Hg. apply Hbad.
Qed.

Lemma status_tokens_enforced_witness :
  <[ "status" := LString "completed" ]> updatePost_given !! "status"
  = Some (LString "completed")
  ∧ ∃ e, invoke "updatePost" (updatePost (Driver false false)) None
           (<[ "status" := LString "completed" ]> updatePost_given) st1 = Rejected e.
Proof.
  assert (<[ "status" := LString "completed" ]> updatePost_given !! "status"
          = Some (LString "completed")) as H1 by reflexivity.
  split; [exact H1|].
  exact (proj2 (status_tokens_enforced (Driver false false) _ None st1 _ H1
                  (or_introl (ex_intro _ "completed" eq_refl)))).
Defined.

(** ** [deleteUser] on a user without selected posts *)

(** X10.  When the query of the cascade selects no post, [deleteUser] on
    the identifier of a stored user returns that user and removes it and
    nothing else: the other users and every post stay. *)
Theorem deleteUser_removes_the_user dr parent args id fields s :
  prop args "id" = VStr id →
  user_docs s !! id = Some fields →
  select dr Post [("userId", VStr id)] s = [] →
  deleteUser_resolve dr parent args s
  = Outcome (inr (RDoc (Doc id fields)))
            (Store (delete id (user_docs s)) (post_docs s))
            [OpFind Post [("userId", VStr id)]; OpFindByIdAndRemove User (VStr id)].
Proof.
  intros Hid Hf Hsel. rewrite deleteUser_resolve_nil by by rewrite Hid.
  rewrite Hid. simpl. by rewrite Hf.
Qed.

Lemma deleteUser_removes_the_user_witness :
  prop {[ "id" := VStr "u1" ]} "id" = VStr "u1"
  ∧ user_docs st1 !! "u1" = Some alex
  ∧ select (Driver false false) Post [("userId", VStr "u1")] st1 = []
  ∧ deleteUser_resolve (Driver false false) None {[ "id" := VStr "u1" ]} st1
    = Outcome (inr (RDoc (Doc "u1" alex)))
              (Store (delete "u1" (user_docs st1)) (post_docs st1))
              [OpFind Post [("userId", VStr "u1")]; OpFindByIdAndRemove User (VStr "u1")].
Proof.
  assert (prop {[ "id" := VStr "u1" ]} "id" = VStr "u1") as H1 by reflexivity.
  assert (user_docs st1 !! "u1" = Some alex) as H2 by reflexivity.
  assert (select (Driver false false) Post [("userId", VStr "u1")] st1 = []) as H3
    by (vm_compute; reflexivity).
  split; [exact H1|]. split; [exact H2|]. split; [exact H3|].
  exact (deleteUser_removes_the_user (Driver false false) None _ "u1" alex st1 H1 H2 H3).
Defined.

(** X11.  In every store and for every driver, [deleteUser] removes no
    post and no user other than the one whose identifier it is given, and
    it returns only when the query of its cascade selected no post. *)
Theorem deleteUser_frame dr parent args s :
  let o := deleteUser_resolve dr parent args s in
  post_docs (final o) = post_docs s
  ∧ (∀ k, prop args "id" ≠ VStr k → user_docs (final o) !! k = user_docs s !! k)
  ∧ match result o with
    | inl _ => final o = s
    | inr _ => select dr Post [("userId", prop args "id")] s = []
    end.
Proof.
  cbv zeta.
  destruct (decide (select dr Post [("userId", prop args "id")] s = [])) as [Hnil|Hne].
  - rewrite deleteUser_resolve_nil by done.
    destruct (prop args "id") as [| |id]; simpl; try done.
    destruct (user_docs s !! id) eqn:E; simpl; [|done].
    split; [done|]. split; [|done]. intros k Hk. apply lookup_delete_ne. congruence.
  - by rewrite deleteUser_resolve_cons.
Qed.
